(** * E-Stop USB: the polling control loop of [code.py]

    A shallow embedding of the program: the settings, the [Pins] and [State]
    classes, the body of the [while True] loop of [main] and the helper
    functions [checkStops], [sendKeyPress], [releaseKeyPress] and
    [dbg_printIOState]; then finite runs of the loop ([run_loop]) and the
    dump of the pins ([Pins.__str__]).

    Modelling choices.
    - [time.monotonic()] returns seconds as a float.  A float is the
      rational it denotes; the literals of the source (5, 0.25, -100, 0.01)
      are taken at face value.  Comparing two floats is exact.  Subtracting
      them rounds: the loop is parametrised by the subtraction [fsub] of the
      interpreter, and [float_sub p] is the correctly rounded one for floats
      of [p] significant bits ([double_sub] for 53).
    - The clock is an oracle [clock : nat -> Q]: the n-th call of
      [time.monotonic()] since boot returns [clock n].  The world counts the
      calls made so far ([ticks]).
    - The module-level singletons [pins] and [state] are the fields of one
      [World] record threaded through a state monad.
    - The calls that reach the keyboard sink and the indicator driver are
      collected, oldest first, in the list of events that every computation
      returns. *)

From Stdlib Require Import String Ascii.
From Stdlib Require Import Bool List ZArith QArith Qround Qabs Qpower.
From Stdlib Require Import Lia Lqa.
Import ListNotations.

Set Implicit Arguments.
Local Open Scope Q_scope.

(** ** Settings *)

(** The module-level constants of the "Settings" block.  [KEYCODE] is the HID
    usage code handed to [keyboard.press]. *)
Record Config : Type := mkConfig
  { DEBUG : bool;
    DISABLE_KEYCYL : bool;
    DISABLE_LEDS : bool;
    FLASHING_LEDS_ONLY : bool;
    KEYCODE : Z;
    DELAY : Q;
    DWELL : Q;
    FLASHTIME : Q }.

(** [Keycode.ESCAPE] of adafruit_hid is 0x29. *)
Definition ESCAPE : Z := 41.

(** The values the file ships with. *)
Definition settings : Config :=
  {| DEBUG := false;
     DISABLE_KEYCYL := true;
     DISABLE_LEDS := false;
     FLASHING_LEDS_ONLY := false;
     KEYCODE := ESCAPE;
     DELAY := 5;
     DWELL := 1 # 4;
     FLASHTIME := 1 # 4 |}.

(** ** Pins and state *)

(** A [digitalio.DigitalInOut] object, reduced to the level it carries. *)
Record DigitalInOut : Type := mkPin { value : bool }.

(** The four class attributes of [Pins]. *)
Record Pins : Type := mkPins
  { ESTOP : DigitalInOut;
    KEYCYL : DigitalInOut;
    LED_START : DigitalInOut;
    LED_READY : DigitalInOut }.

(** [togglePin] and [setPin] receive a pin object by reference; the loop only
    ever passes [pins.LED_START] or [pins.LED_READY]. *)
Inductive OutPin : Type := StartLed | ReadyLed.

Definition pin_of (p : OutPin) (ps : Pins) : DigitalInOut :=
  match p with
  | StartLed => LED_START ps
  | ReadyLed => LED_READY ps
  end.

Definition assign_pin (p : OutPin) (v : bool) (ps : Pins) : Pins :=
  match p with
  | StartLed =>
      {| ESTOP := ESTOP ps; KEYCYL := KEYCYL ps;
         LED_START := mkPin v; LED_READY := LED_READY ps |}
  | ReadyLed =>
      {| ESTOP := ESTOP ps; KEYCYL := KEYCYL ps;
         LED_START := LED_START ps; LED_READY := mkPin v |}
  end.

(** The class [State]. *)
Record State : Type := mkState
  { active : bool;
    keyDown : bool;
    timeActivated : Q;
    timeLastFlashed : Q;
    timeLastKeypress : Q }.

(** One line of the debug dump: the clock reading, the pins and the state. *)
Definition DbgLine : Type := (Q * Pins * State)%type.

Record World : Type := mkWorld
  { pins : Pins;
    state : State;
    ticks : nat;
    console : list DbgLine }.

(** Calls on the keyboard sink and on the indicator driver. *)
Inductive Event : Type :=
| KbdPress (k : Z)
| KbdReleaseAll
| CallSetPin (p : OutPin) (s : bool)
| CallTogglePin (p : OutPin).

(** ** The monad: state over [World], output of events *)

Definition M (A : Type) : Type := World -> A * World * list Event.

Definition ret {A} (a : A) : M A := fun w => (a, w, []).

Definition bind {A B} (m : M A) (f : A -> M B) : M B :=
  fun w =>
    let '(a, w1, e1) := m w in
    let '(b, w2, e2) := f a w1 in
    (b, w2, e1 ++ e2).

Notation "x <- m ;; k" := (bind m (fun x => k))
  (at level 61, m at next level, right associativity).
Notation "m ;;; k" := (bind m (fun _ => k))
  (at level 61, right associativity).

Definition emit (e : Event) : M unit := fun w => (tt, w, [e]).

Definition gets {A} (f : World -> A) : M A := fun w => (f w, w, []).

Definition modify (f : World -> World) : M unit := fun w => (tt, f w, []).

Definition with_pins (f : Pins -> Pins) (w : World) : World :=
  {| pins := f (pins w); state := state w;
     ticks := ticks w; console := console w |}.

Definition with_state (f : State -> State) (w : World) : World :=
  {| pins := pins w; state := f (state w);
     ticks := ticks w; console := console w |}.

Definition set_active (b : bool) (s : State) : State :=
  {| active := b; keyDown := keyDown s; timeActivated := timeActivated s;
     timeLastFlashed := timeLastFlashed s;
     timeLastKeypress := timeLastKeypress s |}.

Definition set_keyDown (b : bool) (s : State) : State :=
  {| active := active s; keyDown := b; timeActivated := timeActivated s;
     timeLastFlashed := timeLastFlashed s;
     timeLastKeypress := timeLastKeypress s |}.

Definition set_timeActivated (t : Q) (s : State) : State :=
  {| active := active s; keyDown := keyDown s; timeActivated := t;
     timeLastFlashed := timeLastFlashed s;
     timeLastKeypress := timeLastKeypress s |}.

Definition set_timeLastFlashed (t : Q) (s : State) : State :=
  {| active := active s; keyDown := keyDown s;
     timeActivated := timeActivated s; timeLastFlashed := t;
     timeLastKeypress := timeLastKeypress s |}.

Definition set_timeLastKeypress (t : Q) (s : State) : State :=
  {| active := active s; keyDown := keyDown s;
     timeActivated := timeActivated s;
     timeLastFlashed := timeLastFlashed s; timeLastKeypress := t |}.

(** The sentinel the time stamps start from, [-100] seconds since boot. *)
Definition far_past : Q := -100.

(** ** Float subtraction *)

(** The nearest integer, ties to the even one. *)
Definition round_half_even (q : Q) : Z :=
  let f := Qfloor q in
  match Qcompare (q - inject_Z f) (1 # 2) with
  | Lt => f
  | Eq => if Z.even f then f else (f + 1)%Z
  | Gt => (f + 1)%Z
  end.

(** The binary exponent of a non-zero rational: [2 ^ ilog2 q <= |q|] and
    [|q| < 2 ^ (ilog2 q + 1)]. *)
Definition ilog2 (q : Q) : Z :=
  let g := (Z.log2 (Z.abs (Qnum q)) - Z.log2 (Zpos (Qden q)))%Z in
  if Qle_bool (2 ^ g) (Qabs q) then g else (g - 1)%Z.

(** Rounding to [p] significant bits, to nearest, ties to even; the exponent
    range is not bounded. *)
Definition round_to (p : Z) (q : Q) : Q :=
  if Qeq_bool q 0 then 0
  else
    let e := (ilog2 q - (p - 1))%Z in
    inject_Z (round_half_even (q / 2 ^ e)) * 2 ^ e.

(** [x - y] on floats of [p] significant bits: the exact difference,
    rounded. *)
Definition float_sub (p : Z) (x y : Q) : Q := round_to p (x - y).

(** [x - y] on IEEE doubles, short of overflow. *)
Definition double_sub : Q -> Q -> Q := float_sub 53.

(** The subtraction grows with its first operand, as every correctly rounded
    one does. *)
Definition sub_monotone (fsub : Q -> Q -> Q) : Prop :=
  forall a b c : Q, a <= b -> fsub a c <= fsub b c.

Section Program.

Variable cfg : Config.
Variable clock : nat -> Q.

(** The [-] of the interpreter on two floats. *)
Variable fsub : Q -> Q -> Q.

(** [time.monotonic()] *)
Definition monotonic : M Q :=
  fun w =>
    (clock (ticks w),
     {| pins := pins w; state := state w;
        ticks := S (ticks w); console := console w |},
     []).

(** [time.sleep(d)]: nothing of the world changes; the time that passes shows
    in the later readings of [clock]. *)
Definition sleep (d : Q) : M unit := ret tt.

(** [print] of the debug dump. *)
Definition print (l : DbgLine) : M unit :=
  modify (fun w =>
    {| pins := pins w; state := state w;
       ticks := ticks w; console := console w ++ [l] |}).

(** [keyboard.press] and [keyboard.release_all] *)
Definition keyboard_press (k : Z) : M unit := emit (KbdPress k).
Definition keyboard_release_all : M unit := emit KbdReleaseAll.

(** *** class Pins *)

(** [Pins.__init__]: both LEDs on unless disabled or flashing only.  The two
    inputs read whatever the wiring gives. *)
Definition Pins_init (estop keycyl : bool) : Pins :=
  {| ESTOP := mkPin estop;
     KEYCYL := mkPin keycyl;
     LED_START := mkPin (negb (DISABLE_LEDS cfg || FLASHING_LEDS_ONLY cfg));
     LED_READY := mkPin (negb (DISABLE_LEDS cfg || FLASHING_LEDS_ONLY cfg)) |}.

Definition togglePin (p : OutPin) : M unit :=
  emit (CallTogglePin p) ;;;
  if DISABLE_LEDS cfg then
    modify (with_pins (assign_pin p false))
  else
    v <- gets (fun w => value (pin_of p (pins w))) ;;
    modify (with_pins (assign_pin p (xorb v true))).

Definition setPin (p : OutPin) (s : bool) : M unit :=
  emit (CallSetPin p s) ;;;
  if DISABLE_LEDS cfg || FLASHING_LEDS_ONLY cfg then
    modify (with_pins (assign_pin p false))
  else
    modify (with_pins (assign_pin p s)).

(** *** class State *)

Definition State_init : State :=
  {| active := false; keyDown := false;
     timeActivated := far_past;
     timeLastFlashed := far_past;
     timeLastKeypress := far_past |}.

(** *** Function definitions *)

Definition checkStops : M bool :=
  e <- gets (fun w => value (ESTOP (pins w))) ;;
  k <- gets (fun w => value (KEYCYL (pins w))) ;;
  if e && (k || DISABLE_KEYCYL cfg) then ret false else ret true.

Definition sendKeyPress : M unit :=
  keyboard_press (KEYCODE cfg) ;;;
  setPin StartLed false ;;;
  modify (with_state (set_keyDown true)) ;;;
  t <- monotonic ;;
  modify (with_state (set_timeLastKeypress t)).

Definition releaseKeyPress : M unit :=
  keyboard_release_all ;;;
  modify (with_state (set_keyDown false)) ;;;
  setPin StartLed true.

Definition dbg_printIOState : M unit :=
  if negb (DEBUG cfg) then ret tt
  else
    t <- monotonic ;;
    ps <- gets pins ;;
    st <- gets state ;;
    print (t, ps, st).

(** *** Main loop *)

(** The body of [while True] in [main]. *)
Definition iteration : M unit :=
  dbg_printIOState ;;;
  triggered <- checkStops ;;
  (if triggered then
     a <- gets (fun w => active (state w)) ;;
     if a then
       kd <- gets (fun w => keyDown (state w)) ;;
       (if kd then
          now <- monotonic ;;
          last <- gets (fun w => timeLastKeypress (state w)) ;;
          if Qle_bool (DWELL cfg) (fsub now last) then releaseKeyPress
          else ret tt
        else
          now <- monotonic ;;
          last <- gets (fun w => timeLastKeypress (state w)) ;;
          if Qle_bool (DELAY cfg) (fsub now last) then sendKeyPress
          else ret tt) ;;;
       now <- monotonic ;;
       last <- gets (fun w => timeLastFlashed (state w)) ;;
       if Qle_bool (FLASHTIME cfg) (fsub now last) then
         togglePin ReadyLed ;;;
         t <- monotonic ;;
         modify (with_state (set_timeLastFlashed t))
       else ret tt
     else
       modify (with_state (set_active true)) ;;;
       t <- monotonic ;;
       modify (with_state (set_timeActivated t)) ;;;
       modify (with_state (set_timeLastKeypress far_past))
   else
     a <- gets (fun w => active (state w)) ;;
     if a then
       modify (with_state (set_active false)) ;;;
       setPin ReadyLed true ;;;
       setPin StartLed false ;;;
       releaseKeyPress
     else ret tt) ;;;
  sleep (1 # 100).

(** *** The loop as a step function *)

(** The world after the "Init" block. *)
Definition boot (estop keycyl : bool) : World :=
  {| pins := Pins_init estop keycyl; state := State_init;
     ticks := 0; console := [] |}.

(** The environment drives the two inputs between iterations. *)
Definition sample (estop keycyl : bool) (w : World) : World :=
  {| pins := {| ESTOP := mkPin estop; KEYCYL := mkPin keycyl;
                LED_START := LED_START (pins w);
                LED_READY := LED_READY (pins w) |};
     state := state w; ticks := ticks w; console := console w |}.

(** One pass of the loop with the inputs at [estop] and [keycyl]: the world it
    leaves and the calls it made. *)
Definition loop_step (estop keycyl : bool) (w : World) : World * list Event :=
  let '(_, w', evs) := iteration (sample estop keycyl w) in (w', evs).

(** What [checkStops] answers in a world. *)
Definition triggered_in (w : World) : bool :=
  fst (fst (checkStops w)).

(** The worlds the loop can be in at the top of an iteration. *)
Inductive reachable : World -> Prop :=
| reachable_boot : forall e k, reachable (boot e k)
| reachable_step : forall w e k,
    reachable w -> reachable (fst (loop_step e k w)).

End Program.

(** ** Observations on the calls of one iteration *)

Definition is_press (e : Event) : bool :=
  match e with KbdPress _ => true | _ => false end.

Definition is_release (e : Event) : bool :=
  match e with KbdReleaseAll => true | _ => false end.

Definition is_toggle_ready (e : Event) : bool :=
  match e with CallTogglePin ReadyLed => true | _ => false end.

Definition pressed (evs : list Event) : bool := existsb is_press evs.
Definition released (evs : list Event) : bool := existsb is_release evs.
Definition toggled_ready (evs : list Event) : bool :=
  existsb is_toggle_ready evs.

(** The number of clock readings [dbg_printIOState] takes. *)
Definition dbg_reads (cfg : Config) : nat := if DEBUG cfg then 1%nat else 0%nat.

(** The world a computation leaves. *)
Definition world_of {A} (r : A * World * list Event) : World := snd (fst r).

(** The level of an output pin after a computation. *)
Definition level_after {A} (p : OutPin) (r : A * World * list Event) : bool :=
  value (pin_of p (pins (world_of r))).

(** A clock that advances by a hundredth of a second per reading, for the
    worked examples. *)
Definition centi_clock (n : nat) : Q := inject_Z (Z.of_nat n) / 100.

(** A clock that gives the same reading at every call. *)
Definition still_clock (t : Q) (n : nat) : Q := t.

(** The doubles nearest to 0.30, 0.05, 5.02 and 0.02.  The exact difference
    of the first two is 2^-56 short of 0.25, that of the last two 123/2^58
    short of 5; rounded, they are 0.25 and 5. *)
Definition dbl_0_30 : Q := 5404319552844595 # (2 ^ 54).
Definition dbl_0_05 : Q := 3602879701896397 # (2 ^ 56).
Definition dbl_5_02 : Q := 1413004383087493 # (2 ^ 48).
Definition dbl_0_02 : Q := 5764607523034235 # (2 ^ 58).

(** A world in the middle of a run: triggered and active, key held since
    [tk], last flash at [tf]. *)
Definition running (kd : bool) (tk tf : Q) : World :=
  {| pins := {| ESTOP := mkPin false; KEYCYL := mkPin false;
                LED_START := mkPin (negb kd); LED_READY := mkPin true |};
     state := {| active := true; keyDown := kd; timeActivated := 0;
                 timeLastFlashed := tf; timeLastKeypress := tk |};
     ticks := 0; console := [] |}.

(** The index of the clock reading that the dwell/repeat check of an
    iteration started in [w] compares with [timeLastKeypress]; the transition
    to active stamps [timeActivated] with the same reading. *)
Definition key_check_tick (cfg : Config) (w : World) : nat :=
  (dbg_reads cfg + ticks w)%nat.

(** The index of the reading that the flash check compares with
    [timeLastFlashed]: one later than the key check, two when [sendKeyPress]
    ran in between and took its own reading. *)
Definition flash_check_tick (cfg : Config) (w : World) (evs : list Event)
  : nat :=
  ((if pressed evs then 2 else 1) + (dbg_reads cfg + ticks w))%nat.

(** The iteration enters the active state: triggered while [active] is
    clear. *)
Definition entering (cfg : Config) (e k : bool) (w : World) : bool :=
  triggered_in cfg (sample e k w) && negb (active (state w)).

(** A short run from boot under the shipped settings: the button goes down
    for two iterations (transition, then key press) and comes back up. *)
Definition after_release : World :=
  let w0 := boot settings true true in
  let w1 := fst (loop_step settings centi_clock double_sub false true w0) in
  let w2 := fst (loop_step settings centi_clock double_sub false true w1) in
  fst (loop_step settings centi_clock double_sub true true w2).

(** ** Runs of the loop *)

(** The first iterations of [while True], one pair of input levels per
    iteration: the world they leave and all the calls they made. *)
Fixpoint run_loop (cfg : Config) (clock : nat -> Q) (fsub : Q -> Q -> Q)
  (inputs : list (bool * bool)) (w : World) : World * list Event :=
  match inputs with
  | [] => (w, [])
  | (e, k) :: rest =>
      let '(w1, evs1) := loop_step cfg clock fsub e k w in
      let '(w2, evs2) := run_loop cfg clock fsub rest w1 in
      (w2, evs1 ++ evs2)
  end.

(** The key as the keyboard sink holds it after a call. *)
Definition sink_step (down : bool) (ev : Event) : bool :=
  match ev with
  | KbdPress _ => true
  | KbdReleaseAll => false
  | _ => down
  end.

Definition sink_down (down : bool) (evs : list Event) : bool :=
  fold_left sink_step evs down.

(** No [keyboard.press] reaches the sink while it already holds the key. *)
Fixpoint well_keyed (down : bool) (evs : list Event) : bool :=
  match evs with
  | [] => true
  | KbdPress _ :: rest => negb down && well_keyed true rest
  | KbdReleaseAll :: rest => well_keyed false rest
  | _ :: rest => well_keyed down rest
  end.

Definition is_keyboard (ev : Event) : bool :=
  match ev with
  | KbdPress _ | KbdReleaseAll => true
  | _ => false
  end.

(** A press, if the call is one, is a press of [kc]. *)
Definition presses_only (kc : Z) (ev : Event) : Prop :=
  match ev with
  | KbdPress k => k = kc
  | _ => True
  end.

(** The iteration finds the inputs safe: [checkStops] answers false. *)
Definition safe_inputs (cfg : Config) (i : bool * bool) : bool :=
  fst i && (snd i || DISABLE_KEYCYL cfg).

(** The level [setPin] gives a LED that is asked to be on. *)
Definition lit (cfg : Config) : bool :=
  negb (DISABLE_LEDS cfg || FLASHING_LEDS_ONLY cfg).

(** What the loop keeps true of the LEDs and the key between iterations. *)
Definition led_invariant (cfg : Config) (w : World) : Prop :=
  value (LED_START (pins w)) = negb (keyDown (state w)) && lit cfg
  /\ (active (state w) = false -> value (LED_READY (pins w)) = lit cfg)
  /\ (DISABLE_LEDS cfg = true -> value (LED_READY (pins w)) = false)
  /\ (keyDown (state w) = true -> active (state w) = true).

(** The settings with [DEBUG] replaced. *)
Definition with_debug (b : bool) (cfg : Config) : Config :=
  {| DEBUG := b;
     DISABLE_KEYCYL := DISABLE_KEYCYL cfg;
     DISABLE_LEDS := DISABLE_LEDS cfg;
     FLASHING_LEDS_ONLY := FLASHING_LEDS_ONLY cfg;
     KEYCODE := KEYCODE cfg;
     DELAY := DELAY cfg;
     DWELL := DWELL cfg;
     FLASHTIME := FLASHTIME cfg |}.

(** The world with one clock reading taken and thrown away. *)
Definition skip_reading (w : World) : World :=
  {| pins := pins w; state := state w;
     ticks := S (ticks w); console := console w |}.

(** *** Pins.__str__ *)

(** [str] of a Python bool. *)
Definition str_bool (b : bool) : String.string :=
  if b then "True"%string else "False"%string.

Definition newline : String.string :=
  String.String (Ascii.ascii_of_nat 10) String.EmptyString.

Definition Pins_str (ps : Pins) : String.string :=
  String.concat String.EmptyString
    [ "ESTOP: "%string; str_bool (value (ESTOP ps)); newline;
      "KEYCYL: "%string; str_bool (value (KEYCYL ps)); newline;
      "LED_START: "%string; str_bool (value (LED_START ps)); newline;
      "LED_READY: "%string; str_bool (value (LED_READY ps)) ].

(** ** Proof automation *)

(** Split a configuration and a world into their fields. *)
Ltac open_world cfg w :=
  destruct cfg as [dbg nocyl noleds flashonly kc delay dwell flashtime];
  destruct w as [[[e0] [k0] [ls] [lr]] [a kd ta tf tk] n con].

(** Simplify, keeping the four helper functions and the comparisons folded. *)
Ltac simp :=
  cbn -[setPin togglePin sendKeyPress releaseKeyPress
        Qle_bool Qminus far_past] in *.

(** Unfold the monad and the loop body down to the conditionals. *)
Ltac run :=
  cbv [loop_step iteration dbg_printIOState checkStops
       keyboard_press keyboard_release_all
       monotonic sleep print bind ret gets modify emit triggered_in sample
       world_of
       level_after dbg_reads key_check_tick flash_check_tick entering] in *;
  simp.

(** ** Closed forms of the helper functions *)

Lemma setPin_eq :
  forall (cfg : Config) (p : OutPin) (s : bool) (w : World),
    setPin cfg p s w =
      (tt,
       with_pins
         (assign_pin p
            (if DISABLE_LEDS cfg || FLASHING_LEDS_ONLY cfg then false else s))
         w,
       [CallSetPin p s]).
Proof.
  intros cfg p s w; unfold setPin, bind, emit, modify.
  destruct (DISABLE_LEDS cfg || FLASHING_LEDS_ONLY cfg); reflexivity.
Qed.

Lemma togglePin_eq :
  forall (cfg : Config) (p : OutPin) (w : World),
    togglePin cfg p w =
      (tt,
       with_pins
         (assign_pin p
            (if DISABLE_LEDS cfg then false
             else negb (value (pin_of p (pins w)))))
         w,
       [CallTogglePin p]).
Proof.
  intros cfg p w; unfold togglePin, bind, emit, modify, gets.
  destruct (DISABLE_LEDS cfg); [reflexivity|].
  cbn; now rewrite xorb_true_r.
Qed.

Lemma releaseKeyPress_eq :
  forall (cfg : Config) (w : World),
    releaseKeyPress cfg w =
      (tt,
       with_pins
         (assign_pin StartLed
            (negb (DISABLE_LEDS cfg || FLASHING_LEDS_ONLY cfg)))
         (with_state (set_keyDown false) w),
       [KbdReleaseAll; CallSetPin StartLed true]).
Proof.
  intros cfg w.
  unfold releaseKeyPress, keyboard_release_all, bind, emit, modify.
  rewrite setPin_eq.
  destruct (DISABLE_LEDS cfg || FLASHING_LEDS_ONLY cfg); reflexivity.
Qed.

Lemma sendKeyPress_eq :
  forall (cfg : Config) (clock : nat -> Q) (w : World),
    sendKeyPress cfg clock w =
      (tt,
       {| pins := assign_pin StartLed false (pins w);
          state := set_timeLastKeypress (clock (ticks w))
                     (set_keyDown true (state w));
          ticks := S (ticks w);
          console := console w |},
       [KbdPress (KEYCODE cfg); CallSetPin StartLed false]).
Proof.
  intros cfg clock w.
  unfold sendKeyPress, keyboard_press, bind, emit, modify, monotonic.
  rewrite setPin_eq.
  destruct (DISABLE_LEDS cfg || FLASHING_LEDS_ONLY cfg); reflexivity.
Qed.

(** Replace the helper calls by their closed forms and split on the timer
    comparisons. *)
Ltac crunch :=
  repeat first
    [ rewrite sendKeyPress_eq
    | rewrite releaseKeyPress_eq
    | rewrite setPin_eq
    | rewrite togglePin_eq
    | progress simp
    | match goal with
      | |- context [if Qle_bool ?x ?y then _ else _] =>
          destruct (Qle_bool x y) eqn:?
      end ].

(** The branches of one iteration: debug dump or not, triggered or not,
    [active] and [keyDown] as found. *)
Ltac loop_cases cfg w e k :=
  let dbg := fresh "dbg" in
  let nocyl := fresh "nocyl" in
  let a := fresh "a" in
  let kd := fresh "kd" in
  destruct cfg as [dbg nocyl noleds flashonly kc delay dwell flashtime];
  destruct w as [[[e0] [k0] [ls] [lr]] [a kd ta tf tk] n con];
  run;
  destruct dbg; simp;
  (destruct (e && (k || nocyl)) eqn:Hsafe); simp;
  destruct a, kd; simp.

(** ** The safety evaluator *)

(** C3. [checkStops] answers NOT(button high AND (cylinder high OR cylinder
    check disabled)), touches nothing and calls nothing; with
    [DISABLE_KEYCYL] set the answer is the negated button level whatever the
    cylinder input reads. *)
Theorem checkStops_spec :
  forall (cfg : Config) (w : World),
    checkStops cfg w =
      (negb (value (ESTOP (pins w))
             && (value (KEYCYL (pins w)) || DISABLE_KEYCYL cfg)), w, [])
    /\ (DISABLE_KEYCYL cfg = true ->
        forall e k1 k2,
          triggered_in cfg (sample e k1 w) = triggered_in cfg (sample e k2 w)
          /\ triggered_in cfg (sample e k1 w) = negb e).
Proof.
  intros cfg w; split.
  - open_world cfg w; run.
    destruct e0, k0, nocyl; reflexivity.
  - intros Hcyl e k1 k2.
    open_world cfg w; run; subst nocyl.
    destruct e, k1, k2; split; reflexivity.
Qed.

Lemma checkStops_spec_witness :
  DISABLE_KEYCYL settings = true
  /\ triggered_in settings (sample true false (boot settings true true))
     = triggered_in settings (sample true true (boot settings true true))
  /\ triggered_in settings (sample false true (boot settings true true))
     = true.
Proof.
  split; [reflexivity|].
  destruct (checkStops_spec settings (boot settings true true)) as [_ H].
  split.
  - exact (proj1 (H eq_refl true false true)).
  - exact (proj2 (H eq_refl false true true)).
Defined.

(** ** The indicator driver *)

(** C7. With [DISABLE_LEDS] set, [setPin] and [togglePin] leave the pin they
    are given at false, whatever is requested, whatever the pin held and
    whatever the other settings are. *)
Theorem leds_disabled_forces_off :
  forall (cfg : Config) (p : OutPin) (s : bool) (w : World),
    DISABLE_LEDS cfg = true ->
    level_after p (setPin cfg p s w) = false
    /\ level_after p (togglePin cfg p w) = false.
Proof.
  intros cfg p s w Hoff.
  unfold level_after, world_of.
  rewrite setPin_eq, togglePin_eq, Hoff.
  destruct p; split; reflexivity.
Qed.

Lemma leds_disabled_forces_off_witness :
  let cfg := mkConfig false true true false ESCAPE 5 (1 # 4) (1 # 4) in
  level_after ReadyLed (setPin cfg ReadyLed true (boot settings true true))
    = false
  /\ value (LED_READY (pins (boot cfg true true))) = false
  /\ level_after ReadyLed (togglePin cfg ReadyLed (boot cfg true true))
     = false.
Proof.
  intro cfg.
  split; [|split; [reflexivity|]].
  - exact (proj1 (leds_disabled_forces_off cfg ReadyLed true
                    (boot settings true true) eq_refl)).
  - exact (proj2 (leds_disabled_forces_off cfg ReadyLed true
                    (boot cfg true true) eq_refl)).
Defined.

(** C8. With [FLASHING_LEDS_ONLY] set and [DISABLE_LEDS] clear, [setPin]
    leaves the pin at false whatever is requested, while [togglePin] inverts
    the level the pin held. *)
Theorem flashing_only_set_off_toggle_inverts :
  forall (cfg : Config) (p : OutPin) (s : bool) (w : World),
    FLASHING_LEDS_ONLY cfg = true ->
    DISABLE_LEDS cfg = false ->
    level_after p (setPin cfg p s w) = false
    /\ level_after p (togglePin cfg p w) = negb (value (pin_of p (pins w))).
Proof.
  intros cfg p s w Hflash Hon.
  unfold level_after, world_of.
  rewrite setPin_eq, togglePin_eq, Hflash, Hon.
  destruct p; split; reflexivity.
Qed.

Lemma flashing_only_set_off_toggle_inverts_witness :
  let cfg := mkConfig false true false true ESCAPE 5 (1 # 4) (1 # 4) in
  level_after ReadyLed (setPin cfg ReadyLed true (boot cfg true true)) = false
  /\ level_after ReadyLed (togglePin cfg ReadyLed (boot cfg true true)) = true.
Proof.
  intro cfg.
  split.
  - exact (proj1 (flashing_only_set_off_toggle_inverts cfg ReadyLed true
                    (boot cfg true true) eq_refl eq_refl)).
  - exact (proj2 (flashing_only_set_off_toggle_inverts cfg ReadyLed true
                    (boot cfg true true) eq_refl eq_refl)).
Defined.

(** ** The control loop *)

(** C4. An iteration that finds the evaluator not triggered while [active] is
    set clears [active], calls [setPin] for the ready LED on and for the start
    LED off, then releases all keys and clears [keyDown]; neither the time
    since the last key press nor the previous [keyDown] plays a part. *)
Theorem active_to_inactive_releases :
  forall (cfg : Config) (clock : nat -> Q) (fsub : Q -> Q -> Q)
         (e k : bool) (w : World),
    triggered_in cfg (sample e k w) = false ->
    active (state w) = true ->
    active (state (fst (loop_step cfg clock fsub e k w))) = false
    /\ keyDown (state (fst (loop_step cfg clock fsub e k w))) = false
    /\ snd (loop_step cfg clock fsub e k w) =
         [CallSetPin ReadyLed true; CallSetPin StartLed false;
          KbdReleaseAll; CallSetPin StartLed true]
    /\ value (LED_READY (pins (fst (loop_step cfg clock fsub e k w)))) =
         negb (DISABLE_LEDS cfg || FLASHING_LEDS_ONLY cfg).
Proof.
  intros cfg clock fsub e k w Hclear Hact.
  loop_cases cfg w e k; try discriminate; crunch;
    destruct noleds, flashonly; repeat split; reflexivity.
Qed.

Lemma active_to_inactive_releases_witness :
  let r := loop_step settings centi_clock double_sub true true (running true 0 0) in
  active (state (fst r)) = false
  /\ keyDown (state (fst r)) = false
  /\ snd r = [CallSetPin ReadyLed true; CallSetPin StartLed false;
              KbdReleaseAll; CallSetPin StartLed true]
  /\ value (LED_READY (pins (fst r))) = true.
Proof.
  exact (active_to_inactive_releases settings centi_clock double_sub true true
           (running true 0 0) eq_refl eq_refl).
Defined.

(** C10. With [DISABLE_LEDS] and [FLASHING_LEDS_ONLY] both clear, the
    iteration that goes from active to inactive ends with the start LED on:
    [releaseKeyPress] sets it on after the transition code has set it off. *)
Theorem active_to_inactive_start_led_on :
  forall (cfg : Config) (clock : nat -> Q) (fsub : Q -> Q -> Q)
         (e k : bool) (w : World),
    DISABLE_LEDS cfg = false ->
    FLASHING_LEDS_ONLY cfg = false ->
    triggered_in cfg (sample e k w) = false ->
    active (state w) = true ->
    value (LED_START (pins (fst (loop_step cfg clock fsub e k w)))) = true.
Proof.
  intros cfg clock fsub e k w Hleds Hflash Hclear Hact.
  loop_cases cfg w e k; try discriminate; crunch;
    subst noleds flashonly; reflexivity.
Qed.

Lemma active_to_inactive_start_led_on_witness :
  value (LED_START (pins (fst (loop_step settings centi_clock double_sub true false
                                 (running true 0 0))))) = true.
Proof.
  exact (active_to_inactive_start_led_on settings centi_clock double_sub true false
           (running true 0 0) eq_refl eq_refl eq_refl eq_refl).
Defined.

(** One iteration keeps the key inside the active state. *)
Lemma loop_step_keeps_key_inside_active :
  forall (cfg : Config) (clock : nat -> Q) (fsub : Q -> Q -> Q)
         (e k : bool) (w : World),
    (keyDown (state w) = true -> active (state w) = true) ->
    keyDown (state (fst (loop_step cfg clock fsub e k w))) = true ->
    active (state (fst (loop_step cfg clock fsub e k w))) = true.
Proof.
  intros cfg clock fsub e k w Hinv.
  loop_cases cfg w e k; crunch;
    solve [reflexivity | intros H; discriminate H | exact Hinv].
Qed.

(** C2. In every world the loop can reach at the top of an iteration, a held
    key implies the active state. *)
Theorem key_down_implies_active :
  forall (cfg : Config) (clock : nat -> Q) (fsub : Q -> Q -> Q)
         (w : World),
    reachable cfg clock fsub w ->
    keyDown (state w) = true -> active (state w) = true.
Proof.
  intros cfg clock fsub w Hreach.
  induction Hreach as [e k | w e k Hreach IH].
  - cbn; intros Hdown; discriminate Hdown.
  - now apply loop_step_keeps_key_inside_active.
Qed.

Lemma key_down_implies_active_witness :
  let w1 := fst (loop_step settings centi_clock double_sub false true
                   (boot settings true true)) in
  let w2 := fst (loop_step settings centi_clock double_sub false true w1) in
  keyDown (state w2) = true /\ active (state w2) = true.
Proof.
  intros w1 w2.
  split; [reflexivity|].
  apply (@key_down_implies_active settings centi_clock double_sub w2).
  - exact (reachable_step false true
             (reachable_step false true
                (reachable_boot settings centi_clock double_sub true true))).
  - reflexivity.
Defined.

(** C1, as stated, fails: from boot with the button pressed the evaluator
    reports triggered, [active] is clear, and the iteration makes no call at
    all, so no key press in that iteration. *)
Lemma transition_iteration_presses_no_key :
  triggered_in settings (sample false true (boot settings true true)) = true
  /\ active (state (boot settings true true)) = false
  /\ pressed (snd (loop_step settings centi_clock double_sub false true
                     (boot settings true true))) = false
  /\ snd (loop_step settings centi_clock double_sub false true
            (boot settings true true)) = [].
Proof.
  repeat split; reflexivity.
Qed.

(** C1, amended. An iteration that finds the evaluator triggered while
    [active] is clear sets [active], stamps [timeActivated] with the clock
    reading it takes, resets [timeLastKeypress] to -100 and calls neither the
    keyboard nor the indicator driver.  The key press comes in the next
    iteration, when that one is triggered too, the key is not held and its
    clock reading is no earlier than [DELAY] after -100: the difference the
    loop computes, reading minus -100, is at least [DELAY]. *)
Theorem inactive_to_active_then_press :
  forall (cfg : Config) (clock : nat -> Q) (fsub : Q -> Q -> Q)
         (e k : bool) (w : World),
    triggered_in cfg (sample e k w) = true ->
    active (state w) = false ->
    let w1 := fst (loop_step cfg clock fsub e k w) in
    active (state w1) = true
    /\ timeActivated (state w1) = clock (key_check_tick cfg w)
    /\ timeLastKeypress (state w1) = far_past
    /\ keyDown (state w1) = keyDown (state w)
    /\ snd (loop_step cfg clock fsub e k w) = []
    /\ (forall e' k' : bool,
           triggered_in cfg (sample e' k' w1) = true ->
           keyDown (state w) = false ->
           DELAY cfg <= fsub (clock (key_check_tick cfg w1)) far_past ->
           pressed (snd (loop_step cfg clock fsub e' k' w1)) = true).
Proof.
  intros cfg clock fsub e k w Htrig Hidle w1; subst w1.
  loop_cases cfg w e k; try discriminate;
    (repeat split; try reflexivity);
    intros e' k' Htrig' Hup Hlate; try discriminate;
    apply Qle_bool_iff in Hlate;
    (destruct (e' && (k' || nocyl)); [discriminate|]);
    simp; rewrite Hlate; crunch; reflexivity.
Qed.

Lemma inactive_to_active_then_press_witness :
  let w0 := boot settings true true in
  let w1 := fst (loop_step settings centi_clock double_sub false true w0) in
  active (state w1) = true
  /\ timeLastKeypress (state w1) = far_past
  /\ snd (loop_step settings centi_clock double_sub false true w0) = []
  /\ pressed (snd (loop_step settings centi_clock double_sub false true w1)) = true.
Proof.
  intros w0 w1.
  destruct (inactive_to_active_then_press settings centi_clock double_sub false true w0
              eq_refl eq_refl) as (Ha & _ & Hk & _ & Hevs & Hnext).
  split; [exact Ha|]; split; [exact Hk|]; split; [exact Hevs|].
  apply (Hnext false true eq_refl eq_refl).
  vm_compute; intro H; discriminate H.
Defined.

(** C5, as stated, fails on the iterations that find the evaluator not
    triggered.  With the key held for 0 s and the button back up, the key is
    released although [DWELL] has not elapsed; with the key up and the last
    press 100 s back, no key is pressed although [DELAY] has elapsed.  Reading
    "Active" as the state the iteration ends in does not help: the iteration
    that enters the active state from boot ends active with the key up and
    100 s on the timer, and presses nothing. *)
Lemma cleared_iteration_ignores_key_timers :
  (active (state (running true 0 0)) = true
   /\ keyDown (state (running true 0 0)) = true
   /\ Qle_bool (DWELL settings)
        (double_sub
           (centi_clock (key_check_tick settings (running true 0 0)))
           (timeLastKeypress (state (running true 0 0)))) = false
   /\ released (snd (loop_step settings centi_clock double_sub true true
                       (running true 0 0))) = true)
  /\ (active (state (running false far_past 0)) = true
      /\ keyDown (state (running false far_past 0)) = false
      /\ Qle_bool (DELAY settings)
           (double_sub
              (centi_clock
                 (key_check_tick settings (running false far_past 0)))
              (timeLastKeypress (state (running false far_past 0)))) = true
      /\ pressed (snd (loop_step settings centi_clock double_sub true true
                         (running false far_past 0))) = false)
  /\ (active (state (fst (loop_step settings centi_clock double_sub false true
                            (boot settings true true)))) = true
      /\ keyDown (state (fst (loop_step settings centi_clock double_sub false true
                                (boot settings true true)))) = false
      /\ Qle_bool (DELAY settings)
           (double_sub
              (centi_clock (key_check_tick settings (boot settings true true)))
              (timeLastKeypress (state (boot settings true true)))) = true
      /\ pressed (snd (loop_step settings centi_clock double_sub false true
                         (boot settings true true))) = false).
Proof.
  repeat split; reflexivity.
Qed.

(** C5, amended. In an iteration that finds the evaluator triggered while
    [active] is set, take the elapsed time as the loop computes it: the float
    difference of the clock reading and [timeLastKeypress].  With the key up,
    a key press happens exactly when it is at least [DELAY] (equality
    included) and nothing is released; with the key down, the release happens
    exactly when it is at least [DWELL] and nothing is pressed. *)
Theorem active_triggered_key_timing :
  forall (cfg : Config) (clock : nat -> Q) (fsub : Q -> Q -> Q)
         (e k : bool) (w : World),
    triggered_in cfg (sample e k w) = true ->
    active (state w) = true ->
    let elapsed :=
      fsub (clock (key_check_tick cfg w)) (timeLastKeypress (state w)) in
    let evs := snd (loop_step cfg clock fsub e k w) in
    (keyDown (state w) = false ->
     (pressed evs = true <-> DELAY cfg <= elapsed) /\ released evs = false)
    /\ (keyDown (state w) = true ->
        (released evs = true <-> DWELL cfg <= elapsed) /\ pressed evs = false).
Proof.
  intros cfg clock fsub e k w Htrig Hact elapsed evs; subst elapsed evs.
  rewrite <- !Qle_bool_iff.
  loop_cases cfg w e k; try discriminate;
    (split; intros Hkey; try discriminate Hkey); crunch;
    (split; [split|]);
    solve [ reflexivity | intros H; exact H | intros H; discriminate H
          | intros _; assumption | intros _; reflexivity ].
Qed.

Lemma active_triggered_key_timing_witness :
  pressed (snd (loop_step settings centi_clock double_sub false true
                  (running false far_past 0))) = true
  /\ pressed (snd (loop_step settings centi_clock double_sub false true
                     (running true 0 0))) = false
  /\ released (snd (loop_step settings (still_clock dbl_0_30) double_sub
                      false true (running true dbl_0_05 0))) = true
  /\ pressed (snd (loop_step settings (still_clock dbl_5_02) double_sub
                     false true (running false dbl_0_02 0))) = true.
Proof.
  split; [|split; [|split]].
  - destruct (active_triggered_key_timing settings centi_clock double_sub
                false true (running false far_past 0) eq_refl eq_refl)
      as [Hup _].
    apply (proj1 (Hup eq_refl)).
    vm_compute; intro H; discriminate H.
  - destruct (active_triggered_key_timing settings centi_clock double_sub
                false true (running true 0 0) eq_refl eq_refl)
      as [_ Hdown].
    exact (proj2 (Hdown eq_refl)).
  - destruct (active_triggered_key_timing settings (still_clock dbl_0_30)
                double_sub false true (running true dbl_0_05 0)
                eq_refl eq_refl) as [_ Hdown].
    apply (proj1 (Hdown eq_refl)).
    vm_compute; intro H; discriminate H.
  - destruct (active_triggered_key_timing settings (still_clock dbl_5_02)
                double_sub false true (running false dbl_0_02 0)
                eq_refl eq_refl) as [Hup _].
    apply (proj1 (Hup eq_refl)).
    vm_compute; intro H; discriminate H.
Defined.




(** C9, as stated, fails for [timeLastKeypress]: after a press at 0.02 s and
    a release, the iteration that enters the active state again overwrites
    the stamp with -100 and presses no key. *)
Lemma transition_rewrites_keypress_stamp :
  reachable settings centi_clock double_sub after_release
  /\ Qeq_bool (timeLastKeypress (state after_release)) (2 # 100) = true
  /\ timeLastKeypress
       (state (fst (loop_step settings centi_clock double_sub false true after_release)))
     = far_past
  /\ pressed (snd (loop_step settings centi_clock double_sub false true after_release))
     = false.
Proof.
  split; [|repeat split; reflexivity].
  exact (reachable_step true true
           (reachable_step false true
              (reachable_step false true
                 (reachable_boot settings centi_clock double_sub true true)))).
Qed.

(** C9, amended. [timeLastKeypress] takes a clock reading only in an
    iteration that presses the key (the reading [sendKeyPress] takes); the
    iteration that enters the active state presses nothing and resets it to
    -100; every other iteration leaves it as it was.  [timeLastFlashed] takes
    a clock reading only in an iteration that toggles the ready LED and is
    otherwise left as it was. *)
Theorem time_stamps_follow_actions :
  forall (cfg : Config) (clock : nat -> Q) (fsub : Q -> Q -> Q)
         (e k : bool) (w : World),
    let r := loop_step cfg clock fsub e k w in
    (pressed (snd r) = true ->
     timeLastKeypress (state (fst r)) = clock (S (key_check_tick cfg w)))
    /\ (entering cfg e k w = true ->
        pressed (snd r) = false
        /\ timeLastKeypress (state (fst r)) = far_past)
    /\ (pressed (snd r) = false -> entering cfg e k w = false ->
        timeLastKeypress (state (fst r)) = timeLastKeypress (state w))
    /\ (toggled_ready (snd r) = true ->
        timeLastFlashed (state (fst r))
        = clock (S (flash_check_tick cfg w (snd r))))
    /\ (toggled_ready (snd r) = false ->
        timeLastFlashed (state (fst r)) = timeLastFlashed (state w)).
Proof.
  intros cfg clock fsub e k w r; subst r.
  loop_cases cfg w e k; crunch;
    repeat split; intros; solve [discriminate | reflexivity].
Qed.

Lemma time_stamps_follow_actions_witness :
  timeLastKeypress
    (state (fst (loop_step settings centi_clock double_sub false true after_release)))
  = far_past
  /\ timeLastFlashed
       (state (fst (loop_step settings centi_clock double_sub true true after_release)))
     = timeLastFlashed (state after_release).
Proof.
  split.
  - exact (proj2 (proj1 (proj2 (time_stamps_follow_actions settings
                                   centi_clock double_sub false true after_release))
                    eq_refl)).
  - exact (proj2 (proj2 (proj2 (proj2 (time_stamps_follow_actions settings
                                          centi_clock double_sub true true
                                          after_release)))) eq_refl).
Defined.

(** ** Further properties of the loop *)

(** X1. After any iteration, [active] is exactly what [checkStops] answered
    in that iteration. *)
Theorem active_follows_checkStops :
  forall (cfg : Config) (clock : nat -> Q) (fsub : Q -> Q -> Q)
         (e k : bool) (w : World),
    active (state (fst (loop_step cfg clock fsub e k w)))
    = triggered_in cfg (sample e k w).
Proof.
  intros cfg clock fsub e k w.
  loop_cases cfg w e k; crunch; reflexivity.
Qed.

(** One iteration keeps the LED invariant. *)
Lemma loop_step_keeps_led_invariant :
  forall (cfg : Config) (clock : nat -> Q) (fsub : Q -> Q -> Q)
         (e k : bool) (w : World),
    led_invariant cfg w ->
    led_invariant cfg (fst (loop_step cfg clock fsub e k w)).
Proof.
  intros cfg clock fsub e k w (Hstart & Hready & Hoff & Hkey).
  unfold led_invariant, lit in *.
  loop_cases cfg w e k; crunch;
    try (discriminate (Hkey eq_refl));
    destruct noleds, flashonly; simp;
    repeat split;
    solve [ reflexivity | assumption | intros H; discriminate H
          | intros _; auto ].
Qed.

Lemma boot_led_invariant :
  forall (cfg : Config) (e k : bool), led_invariant cfg (boot cfg e k).
Proof.
  intros cfg e k; unfold led_invariant, lit; cbn.
  repeat split; try reflexivity.
  - intros Hoff; now rewrite Hoff.
  - intros H; discriminate H.
Qed.

Lemma reachable_led_invariant :
  forall (cfg : Config) (clock : nat -> Q) (fsub : Q -> Q -> Q)
         (w : World),
    reachable cfg clock fsub w -> led_invariant cfg w.
Proof.
  intros cfg clock fsub w Hreach.
  induction Hreach as [e k | w e k Hreach IH].
  - apply boot_led_invariant.
  - now apply loop_step_keeps_led_invariant.
Qed.

(** X2. Between iterations the start LED is lit exactly when the key is up
    and the LEDs are neither disabled nor flashing-only: [sendKeyPress]
    switches it off, [releaseKeyPress] switches it back on. *)
Theorem start_led_lit_iff_key_up :
  forall (cfg : Config) (clock : nat -> Q) (fsub : Q -> Q -> Q)
         (w : World),
    reachable cfg clock fsub w ->
    value (LED_START (pins w)) = negb (keyDown (state w)) && lit cfg.
Proof.
  intros cfg clock fsub w Hreach.
  exact (proj1 (reachable_led_invariant Hreach)).
Qed.

Lemma start_led_lit_iff_key_up_witness :
  let w1 := fst (loop_step settings centi_clock double_sub false true
                   (boot settings true true)) in
  let w2 := fst (loop_step settings centi_clock double_sub false true w1) in
  keyDown (state w2) = true /\ value (LED_START (pins w2)) = false.
Proof.
  intros w1 w2; split; [reflexivity|].
  exact (@start_led_lit_iff_key_up settings centi_clock double_sub w2
           (reachable_step false true
              (reachable_step false true
                 (reachable_boot settings centi_clock double_sub true true)))).
Defined.

(** X3. Between iterations, whenever the loop is inactive the ready LED is
    steady: on with the LEDs enabled, off when they are disabled or
    flashing-only. *)
Theorem ready_led_steady_when_inactive :
  forall (cfg : Config) (clock : nat -> Q) (fsub : Q -> Q -> Q)
         (w : World),
    reachable cfg clock fsub w ->
    active (state w) = false ->
    value (LED_READY (pins w)) = lit cfg.
Proof.
  intros cfg clock fsub w Hreach.
  exact (proj1 (proj2 (reachable_led_invariant Hreach))).
Qed.

Lemma ready_led_steady_when_inactive_witness :
  value (LED_READY (pins after_release)) = true.
Proof.
  apply (@ready_led_steady_when_inactive settings centi_clock double_sub after_release).
  - exact (reachable_step true true
             (reachable_step false true
                (reachable_step false true
                   (reachable_boot settings centi_clock double_sub true true)))).
  - reflexivity.
Defined.

(** X4. With [DISABLE_LEDS] set, both LEDs are off between any two
    iterations of any run. *)
Theorem leds_disabled_stay_dark :
  forall (cfg : Config) (clock : nat -> Q) (fsub : Q -> Q -> Q)
         (w : World),
    DISABLE_LEDS cfg = true ->
    reachable cfg clock fsub w ->
    value (LED_START (pins w)) = false /\ value (LED_READY (pins w)) = false.
Proof.
  intros cfg clock fsub w Hoff Hreach.
  destruct (reachable_led_invariant Hreach) as (Hstart & _ & Hready & _).
  split; [|exact (Hready Hoff)].
  rewrite Hstart; unfold lit; rewrite Hoff.
  now rewrite andb_false_r.
Qed.

Lemma leds_disabled_stay_dark_witness :
  let cfg := mkConfig false true true false ESCAPE 5 (1 # 4) (1 # 4) in
  let w1 := fst (loop_step cfg centi_clock double_sub false true (boot cfg true true)) in
  let w2 := fst (loop_step cfg centi_clock double_sub false true w1) in
  value (LED_START (pins w2)) = false /\ value (LED_READY (pins w2)) = false.
Proof.
  intros cfg w1 w2.
  apply (@leds_disabled_stay_dark cfg centi_clock double_sub w2 eq_refl).
  exact (reachable_step false true
           (reachable_step false true
              (reachable_boot cfg centi_clock double_sub true true))).
Defined.

(** ** Runs of several iterations *)

Lemma sink_down_app :
  forall (a b : list Event) (down : bool),
    sink_down down (a ++ b) = sink_down (sink_down down a) b.
Proof.
  intros a b down; unfold sink_down; apply fold_left_app.
Qed.

Lemma well_keyed_app :
  forall (a b : list Event) (down : bool),
    well_keyed down (a ++ b)
    = well_keyed down a && well_keyed (sink_down down a) b.
Proof.
  induction a as [|ev a IH]; intros b down.
  - reflexivity.
  - destruct ev; cbn [app well_keyed]; rewrite IH;
      unfold sink_down; cbn [fold_left sink_step];
      try reflexivity.
    now rewrite andb_assoc.
Qed.

(** The keyboard calls of one iteration, read against [keyDown]. *)
Lemma loop_step_keyboard :
  forall (cfg : Config) (clock : nat -> Q) (fsub : Q -> Q -> Q)
         (e k : bool) (w : World),
    sink_down (keyDown (state w)) (snd (loop_step cfg clock fsub e k w))
    = keyDown (state (fst (loop_step cfg clock fsub e k w)))
    /\ well_keyed (keyDown (state w)) (snd (loop_step cfg clock fsub e k w)) = true
    /\ Forall (presses_only (KEYCODE cfg)) (snd (loop_step cfg clock fsub e k w)).
Proof.
  intros cfg clock fsub e k w.
  loop_cases cfg w e k; crunch;
    (split; [reflexivity|split; [reflexivity|]]);
    repeat constructor.
Qed.

Lemma run_loop_cons :
  forall (cfg : Config) (clock : nat -> Q) (fsub : Q -> Q -> Q)
         (e k : bool)
         (rest : list (bool * bool)) (w : World),
    run_loop cfg clock fsub ((e, k) :: rest) w
    = (fst (run_loop cfg clock fsub rest (fst (loop_step cfg clock fsub e k w))),
       snd (loop_step cfg clock fsub e k w)
       ++ snd (run_loop cfg clock fsub rest (fst (loop_step cfg clock fsub e k w)))).
Proof.
  intros cfg clock fsub e k rest w; cbn [run_loop].
  destruct (loop_step cfg clock fsub e k w) as [w1 evs1]; cbn [fst snd].
  destruct (run_loop cfg clock fsub rest w1) as [w2 evs2]; reflexivity.
Qed.

(** A run from a reachable world ends in a reachable world. *)
Lemma run_loop_reachable :
  forall (cfg : Config) (clock : nat -> Q) (fsub : Q -> Q -> Q)
         (inputs : list (bool * bool))
         (w : World),
    reachable cfg clock fsub w ->
    reachable cfg clock fsub (fst (run_loop cfg clock fsub inputs w)).
Proof.
  intros cfg clock fsub inputs.
  induction inputs as [|[e k] rest IH]; intros w Hreach.
  - exact Hreach.
  - rewrite run_loop_cons; cbn [fst].
    apply IH; now constructor.
Qed.

(** X5. Over a run of any length, [keyDown] ends up true exactly when the
    last call the keyboard received was a press: the field mirrors the key
    the host sees. *)
Theorem keyDown_mirrors_keyboard :
  forall (cfg : Config) (clock : nat -> Q) (fsub : Q -> Q -> Q)
         (inputs : list (bool * bool))
         (w : World),
    keyDown (state (fst (run_loop cfg clock fsub inputs w)))
    = sink_down (keyDown (state w)) (snd (run_loop cfg clock fsub inputs w)).
Proof.
  intros cfg clock fsub inputs.
  induction inputs as [|[e k] rest IH]; intros w.
  - reflexivity.
  - rewrite run_loop_cons; cbn [fst snd].
    rewrite sink_down_app, IH.
    now rewrite (proj1 (loop_step_keyboard cfg clock fsub e k w)).
Qed.

(** X6. Over a run of any length, [keyboard.press] is never called while the
    key is already down: between two presses there is a release. *)
Theorem never_presses_held_key :
  forall (cfg : Config) (clock : nat -> Q) (fsub : Q -> Q -> Q)
         (inputs : list (bool * bool))
         (w : World),
    well_keyed (keyDown (state w)) (snd (run_loop cfg clock fsub inputs w)) = true.
Proof.
  intros cfg clock fsub inputs.
  induction inputs as [|[e k] rest IH]; intros w.
  - reflexivity.
  - rewrite run_loop_cons; cbn [snd].
    destruct (loop_step_keyboard cfg clock fsub e k w) as (Hsink & Hwell & _).
    rewrite well_keyed_app, Hwell, Hsink.
    apply IH.
Qed.

(** X7. Over a run of any length, every key the loop presses is
    [KEYCODE]. *)
Theorem presses_only_KEYCODE :
  forall (cfg : Config) (clock : nat -> Q) (fsub : Q -> Q -> Q)
         (inputs : list (bool * bool))
         (w : World),
    Forall (presses_only (KEYCODE cfg)) (snd (run_loop cfg clock fsub inputs w)).
Proof.
  intros cfg clock fsub inputs.
  induction inputs as [|[e k] rest IH]; intros w.
  - constructor.
  - rewrite run_loop_cons; cbn [snd].
    apply Forall_app; split.
    + exact (proj2 (proj2 (loop_step_keyboard cfg clock fsub e k w))).
    + apply IH.
Qed.

(** X8. One iteration makes at most one call on the keyboard, so a press and
    its release are always at least one pass of the loop apart. *)
Theorem one_keyboard_call_per_iteration :
  forall (cfg : Config) (clock : nat -> Q) (fsub : Q -> Q -> Q)
         (e k : bool) (w : World),
    (List.length (filter is_keyboard (snd (loop_step cfg clock fsub e k w)))
     <= 1)%nat.
Proof.
  intros cfg clock fsub e k w.
  loop_cases cfg w e k; crunch; auto.
Qed.

(** X9. While the inputs stay safe, an inactive loop does nothing: over a run
    of any length it makes no call, and the state and both LEDs stay as they
    were. *)
Theorem idle_run_is_silent :
  forall (cfg : Config) (clock : nat -> Q) (fsub : Q -> Q -> Q)
         (inputs : list (bool * bool))
         (w : World),
    forallb (safe_inputs cfg) inputs = true ->
    active (state w) = false ->
    snd (run_loop cfg clock fsub inputs w) = []
    /\ state (fst (run_loop cfg clock fsub inputs w)) = state w
    /\ LED_START (pins (fst (run_loop cfg clock fsub inputs w)))
       = LED_START (pins w)
    /\ LED_READY (pins (fst (run_loop cfg clock fsub inputs w)))
       = LED_READY (pins w).
Proof.
  intros cfg clock fsub inputs.
  induction inputs as [|[e k] rest IH]; intros w Hsafe Hidle.
  - repeat split.
  - cbn [forallb] in Hsafe; apply andb_true_iff in Hsafe.
    destruct Hsafe as [Hnow Hlater].
    assert (Hstep : snd (loop_step cfg clock fsub e k w) = []
                    /\ state (fst (loop_step cfg clock fsub e k w)) = state w
                    /\ LED_START (pins (fst (loop_step cfg clock fsub e k w)))
                       = LED_START (pins w)
                    /\ LED_READY (pins (fst (loop_step cfg clock fsub e k w)))
                       = LED_READY (pins w)).
    { clear IH Hlater; unfold safe_inputs in Hnow; cbn [fst snd] in Hnow.
      loop_cases cfg w e k; try discriminate; repeat split. }
    destruct Hstep as (Hevs & Hst & Hls & Hlr).
    rewrite run_loop_cons; cbn [fst snd].
    destruct (IH (fst (loop_step cfg clock fsub e k w)) Hlater)
      as (Hevs' & Hst' & Hls' & Hlr').
    { now rewrite Hst. }
    rewrite Hevs, Hevs', Hst', Hst, Hls', Hls, Hlr', Hlr.
    repeat split.
Qed.

Lemma idle_run_is_silent_witness :
  snd (run_loop settings centi_clock double_sub [(true, true); (true, false)]
         after_release) = []
  /\ state (fst (run_loop settings centi_clock double_sub [(true, true); (true, false)]
                   after_release)) = state after_release.
Proof.
  destruct (@idle_run_is_silent settings centi_clock double_sub
              [(true, true); (true, false)] after_release
              eq_refl eq_refl) as (Hevs & Hst & _).
  split; [exact Hevs | exact Hst].
Defined.

(** ** Rounding keeps the order *)

(** Rounding moves to the floor or to the next integer. *)
Lemma round_half_even_bounds :
  forall q : Q,
    (Qfloor q <= round_half_even q <= Qfloor q + 1)%Z.
Proof.
  intros q; unfold round_half_even.
  destruct (Qcompare (q - inject_Z (Qfloor q)) (1 # 2));
    try destruct (Z.even (Qfloor q)); lia.
Qed.

(** Rounding to the nearest integer keeps the order. *)
Lemma round_half_even_monotone :
  forall x y : Q, x <= y -> (round_half_even x <= round_half_even y)%Z.
Proof.
  intros x y Hxy.
  pose proof (Qfloor_resp_le _ _ Hxy) as Hfl.
  destruct (Z.eq_dec (Qfloor x) (Qfloor y)) as [Heq|Hne].
  - unfold round_half_even; rewrite <- Heq.
    destruct (Qcompare_spec (x - inject_Z (Qfloor x)) (1 # 2)) as [Hx|Hx|Hx];
      destruct (Qcompare_spec (y - inject_Z (Qfloor x)) (1 # 2)) as [Hy|Hy|Hy];
      try destruct (Z.even (Qfloor x)); try lia; exfalso; lra.
  - pose proof (round_half_even_bounds x); pose proof (round_half_even_bounds y).
    lia.
Qed.

(** Integers round to themselves. *)
Lemma round_half_even_inject_Z :
  forall z : Z, round_half_even (inject_Z z) = z.
Proof.
  intros z; unfold round_half_even; rewrite Qfloor_Z.
  destruct (Qcompare_spec (inject_Z z - inject_Z z) (1 # 2)) as [H|H|H];
    try reflexivity; exfalso; lra.
Qed.

Lemma two_nonzero : ~ 2 == 0.
Proof. intro H; discriminate H. Qed.

Lemma two_gt_one : 1 < 2.
Proof. reflexivity. Qed.

Lemma pow2_pos : forall z : Z, 0 < 2 ^ z.
Proof. intros z; apply Qpower_0_lt; reflexivity. Qed.

Lemma pow2_succ : forall z : Z, 2 ^ (z + 1) == 2 * 2 ^ z.
Proof.
  intros z; rewrite Qpower_plus by exact two_nonzero.
  rewrite Qpower_1_r; ring.
Qed.

(** [2 ^ log2 n <= n < 2 * 2 ^ log2 n], read in the rationals. *)
Lemma log2_bounds_Q :
  forall n : Z, (0 < n)%Z ->
    2 ^ Z.log2 n <= inject_Z n /\ inject_Z n < 2 * 2 ^ Z.log2 n.
Proof.
  intros n Hn.
  destruct (Z.log2_spec n Hn) as [Hlo Hhi].
  pose proof (Z.log2_nonneg n) as Hnn.
  rewrite <- pow2_succ.
  rewrite <- (Zpower_Qpower 2 (Z.log2 n)) by exact Hnn.
  rewrite <- (Zpower_Qpower 2 (Z.log2 n + 1)) by lia.
  split.
  - rewrite <- Zle_Qle; exact Hlo.
  - rewrite <- Zlt_Qlt; unfold Z.succ in Hhi; exact Hhi.
Qed.

(** [ilog2] is the binary exponent. *)
Lemma ilog2_spec :
  forall q : Q, ~ q == 0 ->
    2 ^ ilog2 q <= Qabs q /\ Qabs q < 2 ^ (ilog2 q + 1).
Proof.
  intros q Hq.
  assert (Hn : (0 < Z.abs (Qnum q))%Z).
  { destruct q as [qn qd]; unfold Qeq in Hq; cbn in *. lia. }
  destruct (@log2_bounds_Q _ Hn) as [Hnlo Hnhi].
  destruct (@log2_bounds_Q (Zpos (Qden q)) eq_refl) as [Hdlo Hdhi].
  assert (Habs : Qabs q * inject_Z (Zpos (Qden q)) == inject_Z (Z.abs (Qnum q))).
  { destruct q as [qn qd]; unfold Qabs, Qeq, Qmult, inject_Z; cbn. lia. }
  assert (Hxpos : 0 < Qabs q).
  { destruct (Qlt_le_dec 0 q) as [Hpos|Hneg].
    - rewrite Qabs_pos by lra; exact Hpos.
    - rewrite Qabs_neg by exact Hneg.
      apply Qle_lteq in Hneg; destruct Hneg as [Hneg|Hneg]; [lra|].
      exfalso; apply Hq; exact Hneg. }
  unfold ilog2.
  set (a := Z.log2 (Z.abs (Qnum q))) in *.
  set (b := Z.log2 (Zpos (Qden q))) in *.
  assert (Hg : 2 ^ (a - b) * 2 ^ b == 2 ^ a).
  { rewrite <- Qpower_plus by exact two_nonzero.
    replace (a - b + b)%Z with a by lia. reflexivity. }
  pose proof (pow2_pos a) as Ha. pose proof (pow2_pos b) as Hb.
  pose proof (pow2_pos (a - b)) as Hab.
  destruct (Qle_bool (2 ^ (a - b)) (Qabs q)) eqn:Hcmp.
  - apply Qle_bool_iff in Hcmp. split; [exact Hcmp|].
    rewrite pow2_succ.
    set (x := Qabs q) in *. set (d := inject_Z (Zpos (Qden q))) in *.
    set (n := inject_Z (Z.abs (Qnum q))) in *.
    set (A := 2 ^ a) in *. set (B := 2 ^ b) in *. set (t := 2 ^ (a - b)) in *.
    nra.
  - assert (Hlt : Qabs q < 2 ^ (a - b)).
    { apply Qnot_le_lt; intro Hle; apply Qle_bool_iff in Hle; congruence. }
    replace (a - b - 1 + 1)%Z with (a - b)%Z by lia.
    split; [|exact Hlt].
    assert (Hh : 2 ^ (a - b) == 2 * 2 ^ (a - b - 1)).
    { rewrite <- pow2_succ. replace (a - b - 1 + 1)%Z with (a - b)%Z by lia.
      reflexivity. }
    pose proof (pow2_pos (a - b - 1)) as Hab1.
    set (x := Qabs q) in *. set (d := inject_Z (Zpos (Qden q))) in *.
    set (n := inject_Z (Z.abs (Qnum q))) in *.
    set (A := 2 ^ a) in *. set (B := 2 ^ b) in *. set (t := 2 ^ (a - b)) in *.
    set (h := 2 ^ (a - b - 1)) in *.
    nra.
Qed.

Lemma pow2_inject :
  forall z : Z, (0 <= z)%Z -> inject_Z (2 ^ z) == 2 ^ z.
Proof. intros z Hz; exact (Zpower_Qpower 2 z Hz). Qed.

Lemma round_to_nonzero :
  forall (p : Z) (q : Q), ~ q == 0 ->
    round_to p q
    = inject_Z (round_half_even (q / 2 ^ (ilog2 q - (p - 1))))
      * 2 ^ (ilog2 q - (p - 1)).
Proof.
  intros p q Hq; unfold round_to.
  destruct (Qeq_bool q 0) eqn:H; [|reflexivity].
  apply Qeq_bool_iff in H; contradiction.
Qed.

Lemma round_to_zero :
  forall (p : Z) (q : Q), q == 0 -> round_to p q = 0.
Proof.
  intros p q Hq; unfold round_to.
  destruct (Qeq_bool q 0) eqn:H; [reflexivity|].
  apply Qeq_bool_neq in H; contradiction.
Qed.

(** A positive rational rounds within its binade, ends included. *)
Lemma round_to_pos_bounds :
  forall (p : Z) (q : Q), (1 <= p)%Z -> 0 < q ->
    2 ^ ilog2 q <= round_to p q /\ round_to p q <= 2 ^ (ilog2 q + 1).
Proof.
  intros p q Hp Hq.
  assert (Hnz : ~ q == 0) by lra.
  destruct (@ilog2_spec q Hnz) as [Hlo Hhi].
  rewrite Qabs_pos in Hlo, Hhi by lra.
  rewrite (@round_to_nonzero p q Hnz).
  set (L := ilog2 q) in *. set (e := (L - (p - 1))%Z).
  pose proof (pow2_pos e) as He.
  assert (HL : 2 ^ L == 2 ^ (p - 1) * 2 ^ e).
  { rewrite <- Qpower_plus by exact two_nonzero.
    replace (p - 1 + e)%Z with L by (unfold e; lia). reflexivity. }
  assert (HL1 : 2 ^ (L + 1) == 2 ^ p * 2 ^ e).
  { rewrite <- Qpower_plus by exact two_nonzero.
    replace (p + e)%Z with (L + 1)%Z by (unfold e; lia). reflexivity. }
  assert (Hs : q / 2 ^ e * 2 ^ e == q) by (field; lra).
  assert (Hslo : inject_Z (2 ^ (p - 1)) <= q / 2 ^ e).
  { rewrite pow2_inject by lia.
    apply Qmult_le_r with (2 ^ e); [exact He|].
    rewrite Hs, <- HL; exact Hlo. }
  assert (Hshi : q / 2 ^ e <= inject_Z (2 ^ p)).
  { rewrite pow2_inject by lia.
    apply Qmult_le_r with (2 ^ e); [exact He|].
    rewrite Hs, <- HL1; apply Qlt_le_weak; exact Hhi. }
  apply round_half_even_monotone in Hslo, Hshi.
  rewrite round_half_even_inject_Z in Hslo, Hshi.
  rewrite Zle_Qle in Hslo, Hshi.
  rewrite pow2_inject in Hslo by lia. rewrite pow2_inject in Hshi by lia.
  rewrite HL, HL1.
  split; apply Qmult_le_compat_r; try assumption; apply Qlt_le_weak; exact He.
Qed.

(** So does a negative one. *)
Lemma round_to_neg_bounds :
  forall (p : Z) (q : Q), (1 <= p)%Z -> q < 0 ->
    - 2 ^ (ilog2 q + 1) <= round_to p q /\ round_to p q <= - 2 ^ ilog2 q.
Proof.
  intros p q Hp Hq.
  assert (Hnz : ~ q == 0) by lra.
  destruct (@ilog2_spec q Hnz) as [Hlo Hhi].
  rewrite Qabs_neg in Hlo, Hhi by lra.
  rewrite (@round_to_nonzero p q Hnz).
  set (L := ilog2 q) in *. set (e := (L - (p - 1))%Z).
  pose proof (pow2_pos e) as He.
  assert (HL : 2 ^ L == 2 ^ (p - 1) * 2 ^ e).
  { rewrite <- Qpower_plus by exact two_nonzero.
    replace (p - 1 + e)%Z with L by (unfold e; lia). reflexivity. }
  assert (HL1 : 2 ^ (L + 1) == 2 ^ p * 2 ^ e).
  { rewrite <- Qpower_plus by exact two_nonzero.
    replace (p + e)%Z with (L + 1)%Z by (unfold e; lia). reflexivity. }
  assert (Hs : q / 2 ^ e * 2 ^ e == q) by (field; lra).
  assert (Hshi : q / 2 ^ e <= inject_Z (- 2 ^ (p - 1))).
  { rewrite inject_Z_opp, pow2_inject by lia.
    apply Qmult_le_r with (2 ^ e); [exact He|].
    rewrite Hs. setoid_replace (- 2 ^ (p - 1) * 2 ^ e) with (- 2 ^ L)
      by (rewrite HL; ring). lra. }
  assert (Hslo : inject_Z (- 2 ^ p) <= q / 2 ^ e).
  { rewrite inject_Z_opp, pow2_inject by lia.
    apply Qmult_le_r with (2 ^ e); [exact He|].
    rewrite Hs. setoid_replace (- 2 ^ p * 2 ^ e) with (- 2 ^ (L + 1))
      by (rewrite HL1; ring). lra. }
  apply round_half_even_monotone in Hslo, Hshi.
  rewrite round_half_even_inject_Z in Hslo, Hshi.
  rewrite Zle_Qle in Hslo, Hshi.
  rewrite inject_Z_opp, pow2_inject in Hslo by lia.
  rewrite inject_Z_opp, pow2_inject in Hshi by lia.
  rewrite HL, HL1.
  set (m := inject_Z (round_half_even (q / 2 ^ e))) in *.
  set (t := 2 ^ e) in *. set (P := 2 ^ p) in *. set (P1 := 2 ^ (p - 1)) in *.
  split; nra.
Qed.

(** Rounding to [p] significant bits keeps the order. *)
Lemma round_to_monotone :
  forall (p : Z) (a b : Q), (1 <= p)%Z -> a <= b ->
    round_to p a <= round_to p b.
Proof.
  intros p a b Hp Hab.
  destruct (Q_dec a 0) as [[Ha|Ha]|Ha]; destruct (Q_dec b 0) as [[Hb|Hb]|Hb];
    try (exfalso; lra).
  - (* both negative *)
    destruct (@round_to_neg_bounds p a Hp Ha) as [Halo Hahi].
    destruct (@round_to_neg_bounds p b Hp Hb) as [Hblo Hbhi].
    assert (Hnza : ~ a == 0) by lra. assert (Hnzb : ~ b == 0) by lra.
    destruct (@ilog2_spec a Hnza) as [Halo' Hahi'].
    destruct (@ilog2_spec b Hnzb) as [Hblo' Hbhi'].
    rewrite Qabs_neg in Halo', Hahi', Hblo', Hbhi' by lra.
    assert (Hlt : 2 ^ ilog2 b < 2 ^ (ilog2 a + 1)) by lra.
    apply Qpower_lt_compat_l_inv in Hlt; [|exact two_gt_one].
    destruct (Z.eq_dec (ilog2 a) (ilog2 b)) as [Heq|Hne].
    + rewrite (@round_to_nonzero p a Hnza), (@round_to_nonzero p b Hnzb), Heq.
      apply Qmult_le_compat_r; [|apply Qlt_le_weak, pow2_pos].
      rewrite <- Zle_Qle; apply round_half_even_monotone.
      apply Qmult_le_r with (2 ^ (ilog2 b - (p - 1))); [apply pow2_pos|].
      pose proof (pow2_pos (ilog2 b - (p - 1))).
      setoid_replace (a / 2 ^ (ilog2 b - (p - 1)) * 2 ^ (ilog2 b - (p - 1)))
        with a by (field; lra).
      setoid_replace (b / 2 ^ (ilog2 b - (p - 1)) * 2 ^ (ilog2 b - (p - 1)))
        with b by (field; lra).
      exact Hab.
    + assert (Hle : 2 ^ (ilog2 b + 1) <= 2 ^ ilog2 a).
      { apply Qpower_le_compat_l; [lia | apply Qlt_le_weak, two_gt_one]. }
      lra.
  - (* a negative, b positive *)
    destruct (@round_to_neg_bounds p a Hp Ha) as [_ Hahi].
    destruct (@round_to_pos_bounds p b Hp Hb) as [Hblo _].
    pose proof (pow2_pos (ilog2 a)). pose proof (pow2_pos (ilog2 b)). lra.
  - (* a negative, b zero *)
    destruct (@round_to_neg_bounds p a Hp Ha) as [_ Hahi].
    rewrite (@round_to_zero p b Hb).
    pose proof (pow2_pos (ilog2 a)). lra.
  - (* both positive *)
    destruct (@round_to_pos_bounds p a Hp Ha) as [Halo Hahi].
    destruct (@round_to_pos_bounds p b Hp Hb) as [Hblo Hbhi].
    assert (Hnza : ~ a == 0) by lra. assert (Hnzb : ~ b == 0) by lra.
    destruct (@ilog2_spec a Hnza) as [Halo' Hahi'].
    destruct (@ilog2_spec b Hnzb) as [Hblo' Hbhi'].
    rewrite Qabs_pos in Halo', Hahi', Hblo', Hbhi' by lra.
    assert (Hlt : 2 ^ ilog2 a < 2 ^ (ilog2 b + 1)) by lra.
    apply Qpower_lt_compat_l_inv in Hlt; [|exact two_gt_one].
    destruct (Z.eq_dec (ilog2 a) (ilog2 b)) as [Heq|Hne].
    + rewrite (@round_to_nonzero p a Hnza), (@round_to_nonzero p b Hnzb), Heq.
      apply Qmult_le_compat_r; [|apply Qlt_le_weak, pow2_pos].
      rewrite <- Zle_Qle; apply round_half_even_monotone.
      apply Qmult_le_r with (2 ^ (ilog2 b - (p - 1))); [apply pow2_pos|].
      pose proof (pow2_pos (ilog2 b - (p - 1))).
      setoid_replace (a / 2 ^ (ilog2 b - (p - 1)) * 2 ^ (ilog2 b - (p - 1)))
        with a by (field; lra).
      setoid_replace (b / 2 ^ (ilog2 b - (p - 1)) * 2 ^ (ilog2 b - (p - 1)))
        with b by (field; lra).
      exact Hab.
    + assert (Hle : 2 ^ (ilog2 a + 1) <= 2 ^ ilog2 b).
      { apply Qpower_le_compat_l; [lia | apply Qlt_le_weak, two_gt_one]. }
      lra.
  - (* a zero, b positive *)
    rewrite (@round_to_zero p a Ha).
    destruct (@round_to_pos_bounds p b Hp Hb) as [Hblo _].
    pose proof (pow2_pos (ilog2 b)). lra.
  - (* both zero *)
    rewrite (@round_to_zero p a Ha), (@round_to_zero p b Hb). lra.
Qed.

Lemma float_sub_monotone :
  forall p : Z, (1 <= p)%Z -> sub_monotone (float_sub p).
Proof.
  intros p Hp a b c Hab; unfold float_sub.
  apply round_to_monotone; [exact Hp | lra].
Qed.

(** Subtraction on doubles grows with its first operand. *)
Lemma double_sub_monotone : sub_monotone double_sub.
Proof.
  apply float_sub_monotone; lia.
Qed.

(** ** Timers *)

Lemma centi_clock_monotone :
  forall n : nat, centi_clock n <= centi_clock (S n).
Proof.
  intros n; unfold centi_clock, Qdiv.
  apply Qmult_le_compat_r; [|discriminate].
  rewrite <- Zle_Qle; lia.
Qed.

(** A clock that never runs backwards gives later readings at later
    calls. *)
Lemma monotone_clock_le :
  forall clock : nat -> Q,
    (forall n : nat, clock n <= clock (S n)) ->
    forall n m : nat, (n <= m)%nat -> clock n <= clock m.
Proof.
  intros clock Hmono n m Hle.
  induction Hle as [|m Hle IH].
  - apply Qle_refl.
  - apply Qle_trans with (clock m); [exact IH | apply Hmono].
Qed.

(** X10. With a clock that never runs backwards and a float subtraction that
    grows with its first operand, a key press leaves [timeLastKeypress] so
    that the loop would compute at least [DELAY] between the new stamp and
    the old one, and a toggle of the ready LED leaves [timeLastFlashed] so
    that it would compute at least [FLASHTIME]. *)
Theorem stamps_advance_by_their_period :
  forall (cfg : Config) (clock : nat -> Q) (fsub : Q -> Q -> Q)
         (e k : bool) (w : World),
    (forall n : nat, clock n <= clock (S n)) ->
    sub_monotone fsub ->
    (pressed (snd (loop_step cfg clock fsub e k w)) = true ->
     DELAY cfg
     <= fsub (timeLastKeypress (state (fst (loop_step cfg clock fsub e k w))))
             (timeLastKeypress (state w)))
    /\ (toggled_ready (snd (loop_step cfg clock fsub e k w)) = true ->
        FLASHTIME cfg
        <= fsub (timeLastFlashed
                   (state (fst (loop_step cfg clock fsub e k w))))
                (timeLastFlashed (state w))).
Proof.
  intros cfg clock fsub e k w Hmono Hsub.
  loop_cases cfg w e k; crunch;
    (split; intros Hdone; try discriminate Hdone);
    repeat match goal with
           | H : Qle_bool _ _ = true |- _ => apply Qle_bool_iff in H
           end;
    match goal with
    | H : ?thr <= fsub ?r ?old |- ?thr <= fsub _ ?old =>
        apply Qle_trans with (fsub r old);
        [exact H | apply Hsub, Hmono]
    end.
Qed.

Lemma stamps_advance_by_their_period_witness :
  let w1 := fst (loop_step settings centi_clock double_sub false true
                   (boot settings true true)) in
  DELAY settings
  <= double_sub
       (timeLastKeypress
          (state (fst (loop_step settings centi_clock double_sub
                         false true w1))))
       (timeLastKeypress (state w1)).
Proof.
  intros w1.
  apply (proj1 (@stamps_advance_by_their_period settings centi_clock
                  double_sub false true w1
                  centi_clock_monotone double_sub_monotone)).
  reflexivity.
Defined.

(** ** The debug dump *)

(** X11. The debug dump only observes: an iteration with [DEBUG] set leaves
    the same state and pins and makes the same calls as one with [DEBUG]
    clear that starts one clock reading later; it adds one line to the
    console, holding the reading it took and the pins and state it found. *)
Theorem debug_dump_only_observes :
  forall (cfg : Config) (clock : nat -> Q) (fsub : Q -> Q -> Q)
         (e k : bool) (w : World),
    let on := loop_step (with_debug true cfg) clock fsub e k w in
    let off := loop_step (with_debug false cfg) clock fsub e k (skip_reading w) in
    state (fst on) = state (fst off)
    /\ pins (fst on) = pins (fst off)
    /\ ticks (fst on) = ticks (fst off)
    /\ snd on = snd off
    /\ console (fst on)
       = console w ++ [(clock (ticks w), pins (sample e k w), state w)]
    /\ console (fst off) = console w.
Proof.
  intros cfg clock fsub e k w on off; subst on off.
  destruct cfg as [dbg nocyl noleds flashonly kc delay dwell flashtime].
  destruct w as [[[e0] [k0] [ls] [lr]] [a kd ta tf tk] n con].
  unfold with_debug, skip_reading; run.
  destruct (e && (k || nocyl)); simp; destruct a, kd; crunch;
    repeat split.
Qed.

(** ** The indicator driver, composed *)

(** X12. With the LEDs not disabled, toggling a pin twice puts it back: the
    pins and the state are as before the two calls. *)
Theorem togglePin_twice_restores :
  forall (cfg : Config) (p : OutPin) (w : World),
    DISABLE_LEDS cfg = false ->
    world_of (togglePin cfg p (world_of (togglePin cfg p w))) = w.
Proof.
  intros cfg p w Hon.
  unfold world_of; rewrite !togglePin_eq, Hon.
  destruct w as [[[e0] [k0] [ls] [lr]] st n con].
  destruct p; cbn; now rewrite negb_involutive.
Qed.

Lemma togglePin_twice_restores_witness :
  world_of (togglePin settings ReadyLed
              (world_of (togglePin settings ReadyLed (running true 0 0))))
  = running true 0 0.
Proof.
  exact (@togglePin_twice_restores settings ReadyLed (running true 0 0)
           eq_refl).
Defined.

(** X13. [setPin] and [togglePin] touch the pin they are given and nothing
    else: the other LED, the two inputs and the state are as before. *)
Theorem indicator_driver_frame :
  forall (cfg : Config) (p q : OutPin) (s : bool) (w : World),
    p <> q ->
    (pin_of q (pins (world_of (setPin cfg p s w))) = pin_of q (pins w)
     /\ ESTOP (pins (world_of (setPin cfg p s w))) = ESTOP (pins w)
     /\ KEYCYL (pins (world_of (setPin cfg p s w))) = KEYCYL (pins w)
     /\ state (world_of (setPin cfg p s w)) = state w)
    /\ (pin_of q (pins (world_of (togglePin cfg p w))) = pin_of q (pins w)
        /\ ESTOP (pins (world_of (togglePin cfg p w))) = ESTOP (pins w)
        /\ KEYCYL (pins (world_of (togglePin cfg p w))) = KEYCYL (pins w)
        /\ state (world_of (togglePin cfg p w)) = state w).
Proof.
  intros cfg p q s w Hother.
  unfold world_of; rewrite setPin_eq, togglePin_eq.
  destruct p, q; try (exfalso; apply Hother; reflexivity);
    repeat split.
Qed.

Lemma indicator_driver_frame_witness :
  pin_of StartLed (pins (world_of (setPin settings ReadyLed false
                                     (running false 0 0))))
  = pin_of StartLed (pins (running false 0 0)).
Proof.
  assert (Hother : ReadyLed <> StartLed) by (intros H; discriminate H).
  exact (proj1 (proj1 (@indicator_driver_frame settings ReadyLed StartLed
                         false (running false 0 0) Hother))).
Defined.

(** ** The dump of the pins *)

(** X14. [Pins.__str__] loses nothing: two pin sets with the same dump have
    the same four levels. *)
Theorem Pins_str_injective :
  forall ps1 ps2 : Pins, Pins_str ps1 = Pins_str ps2 -> ps1 = ps2.
Proof.
  intros [[e1] [k1] [s1] [r1]] [[e2] [k2] [s2] [r2]].
  destruct e1, e2, k1, k2, s1, s2, r1, r2; cbv; intros H;
    first [reflexivity | discriminate H].
Qed.

Lemma Pins_str_injective_witness :
  Pins_init settings true false = Pins_init settings true false.
Proof.
  exact (@Pins_str_injective (Pins_init settings true false)
           (Pins_init settings true false) eq_refl).
Defined.

(** ** [DWELL] not below [DELAY] *)

(** X15. The settings ask for [DWELL] below [DELAY].  When it is not, the
    clock never runs backwards and the float subtraction grows with its first
    operand, the key is pressed again in the very iteration after the one
    that released it on the dwell timer, if the evaluator still reports
    triggered. *)
Theorem long_dwell_presses_again_at_once :
  forall (cfg : Config) (clock : nat -> Q) (fsub : Q -> Q -> Q)
         (e k e' k' : bool) (w : World),
    (forall n : nat, clock n <= clock (S n)) ->
    sub_monotone fsub ->
    DELAY cfg <= DWELL cfg ->
    triggered_in cfg (sample e k w) = true ->
    active (state w) = true ->
    keyDown (state w) = true ->
    released (snd (loop_step cfg clock fsub e k w)) = true ->
    triggered_in cfg (sample e' k' (fst (loop_step cfg clock fsub e k w)))
    = true ->
    pressed (snd (loop_step cfg clock fsub e' k'
                    (fst (loop_step cfg clock fsub e k w)))) = true.
Proof.
  intros cfg clock fsub e k e' k' w Hmono Hsub Hlong Htrig Hact Hdown.
  loop_cases cfg w e k; try discriminate;
    (destruct (e' && (k' || nocyl)) eqn:Hsafe'); simp;
    crunch; intros Hrel Htrig'; try discriminate; try reflexivity;
    repeat match goal with
           | H : Qle_bool _ _ = true |- _ => apply Qle_bool_iff in H
           end;
    exfalso;
    match goal with
    | Hd : ?dw <= fsub (clock ?i) ?old,
      H : Qle_bool _ (fsub (clock _) ?old) = false |- _ =>
        apply not_true_iff_false in H; apply H; apply Qle_bool_iff;
        apply Qle_trans with dw; [exact Hlong|];
        apply Qle_trans with (fsub (clock i) old); [exact Hd|];
        apply Hsub; apply (monotone_clock_le clock Hmono); lia
    end.
Qed.

Lemma long_dwell_presses_again_at_once_witness :
  let cfg := mkConfig false true false false ESCAPE (1 # 4) 5 (1 # 4) in
  let w := running true far_past 0 in
  pressed (snd (loop_step cfg centi_clock double_sub false true
                  (fst (loop_step cfg centi_clock double_sub false true w))))
  = true.
Proof.
  intros cfg w.
  apply (@long_dwell_presses_again_at_once cfg centi_clock double_sub
           false true false true w centi_clock_monotone double_sub_monotone).
  - vm_compute; intro H; discriminate H.
  - reflexivity.
  - reflexivity.
  - reflexivity.
  - reflexivity.
  - reflexivity.
Defined.
